(** * The CSS selector builder of [src/05-objects-tasks.js]

    The file embeds the class [SelectorChain] and the facade
    [cssSelectorBuilder].  A builder is a mutable JavaScript object; its
    methods mutate [this], may [throw], and otherwise [return this].

    - A method body is a computation in the monad [M]: it threads the
      receiver's fields and ends in a completion, normal or abrupt.  What
      a method wrote before it threw stays written, as in JavaScript.
    - Builders live in a store ([gmap loc t]) and are passed around by
      reference, so that [combine], which reads two builders and writes a
      third, is modelled with the aliasing the language allows.
    - The counters and the order are JavaScript numbers that start at 0
      and only ever grow by 1 or are set to a literal between 1 and 6;
      they are modelled as [nat] (a double counts exactly up to 2^53).
    - A [value] is a string, as the interface says; on a string both
      [String(value)] and a template literal are the identity.

    The constructor [Rectangle] is embedded with its sides as binary64
    numbers.  [getJSON] and [fromJSON] only call [JSON.stringify],
    [JSON.parse] and [Object.setPrototypeOf], which are not code of this
    file, and are left out. *)

From Stdlib Require Import Ascii.
From Stdlib Require Floats.
From stdpp Require Import gmap strings list.

(** ** Completions and the method monad *)

(** The two [new Error(...)] the class throws, named as the
    specification names them. *)
Inductive Error : Type :=
  | OrderViolationError
  | DuplicatePartError.

Definition message (e : Error) : string :=
  match e with
  | OrderViolationError =>
      "Selector parts should be arranged in the following order: element, id, class, attribute, pseudo-class, pseudo-element"
  | DuplicatePartError =>
      "Element, id and pseudo-element should not occur more then one time inside the selector"
  end.

Inductive completion (A : Type) : Type :=
  | Normal (a : A)
  | Throw (e : Error).
Arguments Normal {A} a.
Arguments Throw {A} e.

#[global] Instance Error_eq_dec : EqDecision Error.
Proof. solve_decision. Defined.

#[global] Instance completion_eq_dec `{EqDecision A} : EqDecision (completion A).
Proof. solve_decision. Defined.

(** JavaScript's [a > b] on the counters. *)
#[global] Instance nat_gt_dec : RelDecision gt := λ a b, decide (b < a).

Module SelectorChain.

(** The fields the constructor creates. *)
Record t : Type := mk {
  selectorChain : string;
  idCount : nat;
  elementCount : nat;
  pseudoElementCount : nat;
  selectorOrder : nat
}.

(** [constructor()] *)
Definition new : t :=
  {| selectorChain := ""; idCount := 0; elementCount := 0;
     pseudoElementCount := 0; selectorOrder := 0 |}.

(** Field assignments [this.f = x]. *)
Definition set_selectorChain (x : string) (this : t) : t :=
  mk x (idCount this) (elementCount this) (pseudoElementCount this) (selectorOrder this).
Definition set_idCount (x : nat) (this : t) : t :=
  mk (selectorChain this) x (elementCount this) (pseudoElementCount this) (selectorOrder this).
Definition set_elementCount (x : nat) (this : t) : t :=
  mk (selectorChain this) (idCount this) x (pseudoElementCount this) (selectorOrder this).
Definition set_pseudoElementCount (x : nat) (this : t) : t :=
  mk (selectorChain this) (idCount this) (elementCount this) x (selectorOrder this).
Definition set_selectorOrder (x : nat) (this : t) : t :=
  mk (selectorChain this) (idCount this) (elementCount this) (pseudoElementCount this) x.

(** A method body: from the receiver's fields to a completion and the
    fields as the body left them. *)
Definition M (A : Type) : Type := t → completion A * t.

#[global] Instance M_ret : MRet M := λ A a this, (Normal a, this).
#[global] Instance M_bind : MBind M := λ A B f m this,
  match m this with
  | (Normal a, this') => f a this'
  | (Throw e, this') => (Throw e, this')
  end.
#[global] Instance M_throw : MThrow Error M := λ A e this, (Throw e, this).

Definition get : M t := λ this, (Normal this, this).
Definition modify (f : t → t) : M unit := λ this, (Normal tt, f this).

(** The outcome and the final fields of running a body. *)
Definition outcome {A} (m : M A) (this : t) : completion A := (m this).1.
Definition fields {A} (m : M A) (this : t) : t := (m this).2.

Definition checkSelectorsOrder (currentOrder : nat) : M unit :=
  this ← get;
  if bool_decide (selectorOrder this > currentOrder)
  then mthrow OrderViolationError
  else mret tt.

Definition checkOccurence : M unit :=
  this ← get;
  if bool_decide (idCount this > 1) || bool_decide (pseudoElementCount this > 1)
     || bool_decide (elementCount this > 1)
  then mthrow DuplicatePartError
  else mret tt.

(** The six part methods.  [return this] is the normal completion: the
    receiver is the object the body has been threading. *)
Definition element (value : string) : M unit :=
  modify (λ this, set_elementCount (elementCount this + 1) this) ;;
  checkOccurence ;;
  checkSelectorsOrder 1 ;;
  modify (λ this, set_selectorChain (selectorChain this +:+ value) this) ;;
  modify (set_selectorOrder 1) ;;
  mret tt.

Definition id (value : string) : M unit :=
  modify (λ this, set_idCount (idCount this + 1) this) ;;
  checkOccurence ;;
  checkSelectorsOrder 2 ;;
  modify (λ this, set_selectorChain (selectorChain this +:+ "#" +:+ value) this) ;;
  modify (set_selectorOrder 2) ;;
  mret tt.

Definition class (value : string) : M unit :=
  checkSelectorsOrder 3 ;;
  modify (λ this, set_selectorChain (selectorChain this +:+ "." +:+ value) this) ;;
  modify (set_selectorOrder 3) ;;
  mret tt.

Definition attr (value : string) : M unit :=
  checkSelectorsOrder 4 ;;
  modify (λ this, set_selectorChain (selectorChain this +:+ "[" +:+ value +:+ "]") this) ;;
  modify (set_selectorOrder 4) ;;
  mret tt.

Definition pseudoClass (value : string) : M unit :=
  checkSelectorsOrder 5 ;;
  modify (λ this, set_selectorChain (selectorChain this +:+ ":" +:+ value) this) ;;
  modify (set_selectorOrder 5) ;;
  mret tt.

Definition pseudoElement (value : string) : M unit :=
  checkSelectorsOrder 6 ;;
  modify (λ this, set_pseudoElementCount (pseudoElementCount this + 1) this) ;;
  checkOccurence ;;
  modify (λ this, set_selectorChain (selectorChain this +:+ "::" +:+ value) this) ;;
  modify (set_selectorOrder 6) ;;
  mret tt.

(** [combine(selector1, combinator, selector2)], seen from the receiver:
    [selector1] and [selector2] are the fields of the two arguments as
    the template literal reads them, before the assignment. *)
Definition combine (selector1 : t) (combinator : string) (selector2 : t) : M unit :=
  modify (set_selectorChain
    (selectorChain selector1 +:+ " " +:+ combinator +:+ " " +:+ selectorChain selector2)) ;;
  mret tt.

Definition stringify : M string :=
  this ← get;
  let selector := selectorChain this in
  modify (set_selectorChain "") ;;
  mret selector.

End SelectorChain.

(** ** Builders as objects in a store *)

(** A reference to a builder. *)
Abbreviation loc := positive (only parsing).
Abbreviation store := (gmap positive SelectorChain.t) (only parsing).

Module Ref.

(** [this.m(...)] for a method that ends in [return this]: the body runs
    on the object [this] points to, the store keeps what the body wrote
    (also when it threw), and a normal completion carries the reference.
    [None] stands for a reference that points nowhere, which JavaScript
    cannot produce. *)
Definition invoke (this : loc) (m : SelectorChain.M unit) (h : store)
  : option (completion loc * store) :=
  o ← h !! this;
  let r := match SelectorChain.outcome m o with
           | Normal _ => Normal this
           | Throw e => Throw e
           end in
  Some (r, <[this := SelectorChain.fields m o]> h).

Definition element (this : loc) (value : string) := invoke this (SelectorChain.element value).
Definition id (this : loc) (value : string) := invoke this (SelectorChain.id value).
Definition class (this : loc) (value : string) := invoke this (SelectorChain.class value).
Definition attr (this : loc) (value : string) := invoke this (SelectorChain.attr value).
Definition pseudoClass (this : loc) (value : string) :=
  invoke this (SelectorChain.pseudoClass value).
Definition pseudoElement (this : loc) (value : string) :=
  invoke this (SelectorChain.pseudoElement value).

(** [this.combine(selector1, combinator, selector2)]: the two arguments
    are dereferenced first (the right-hand side of the assignment), then
    the receiver is written.  Nothing forbids an argument from being the
    receiver itself. *)
Definition combine (this selector1 : loc) (combinator : string) (selector2 : loc)
    (h : store) : option (completion loc * store) :=
  s1 ← h !! selector1;
  s2 ← h !! selector2;
  invoke this (SelectorChain.combine s1 combinator s2) h.

(** [this.stringify()] returns a string, not the receiver. *)
Definition stringify (this : loc) (h : store) : option (completion string * store) :=
  o ← h !! this;
  Some (SelectorChain.outcome SelectorChain.stringify o,
        <[this := SelectorChain.fields SelectorChain.stringify o]> h).

End Ref.

(** The facade: every entry builds a [new SelectorChain()] and calls the
    method of the same name on it. *)
Module cssSelectorBuilder.

(** [new SelectorChain()]: a reference no live builder has. *)
Definition construct (h : store) : loc * store :=
  let this := fresh (dom h) in (this, <[this := SelectorChain.new]> h).

Definition element (value : string) (h : store) :=
  let '(this, h') := construct h in Ref.element this value h'.
Definition id (value : string) (h : store) :=
  let '(this, h') := construct h in Ref.id this value h'.
Definition class (value : string) (h : store) :=
  let '(this, h') := construct h in Ref.class this value h'.
Definition attr (value : string) (h : store) :=
  let '(this, h') := construct h in Ref.attr this value h'.
Definition pseudoClass (value : string) (h : store) :=
  let '(this, h') := construct h in Ref.pseudoClass this value h'.
Definition pseudoElement (value : string) (h : store) :=
  let '(this, h') := construct h in Ref.pseudoElement this value h'.
Definition combine (s1 : loc) (combinator : string) (s2 : loc) (h : store) :=
  let '(this, h') := construct h in Ref.combine this s1 combinator s2 h'.

End cssSelectorBuilder.

(** ** The vocabulary of the specification *)

(** The six part kinds of the table in section 4.1. *)
Inductive kind : Type :=
  | Element | Id | Class | Attr | PseudoClass | PseudoElement.

#[global] Instance kind_eq_dec : EqDecision kind.
Proof. solve_decision. Defined.

(** A part: its kind and the fragment to embed. *)
Abbreviation part := (kind * string)%type.

(** Rank, singleton flag and rendered form, column by column as the
    specification's table gives them (not read off the code). *)
Definition rank (k : kind) : nat :=
  match k with
  | Element => 1 | Id => 2 | Class => 3 | Attr => 4 | PseudoClass => 5 | PseudoElement => 6
  end.

Definition singleton (k : kind) : bool :=
  match k with
  | Element | Id | PseudoElement => true
  | Class | Attr | PseudoClass => false
  end.

Definition rendered (p : part) : string :=
  match p.1 with
  | Element => p.2
  | Id => "#" +:+ p.2
  | Class => "." +:+ p.2
  | Attr => "[" +:+ p.2 +:+ "]"
  | PseudoClass => ":" +:+ p.2
  | PseudoElement => "::" +:+ p.2
  end.

(** The concatenation, in order and with no separator, of the rendered
    forms. *)
Definition rendered_all (ps : list part) : string :=
  foldr (λ p acc, rendered p +:+ acc) "" ps.

(** The method of the class that appends a part of kind [k]. *)
Definition append (k : kind) (value : string) : SelectorChain.M unit :=
  match k with
  | Element => SelectorChain.element value
  | Id => SelectorChain.id value
  | Class => SelectorChain.class value
  | Attr => SelectorChain.attr value
  | PseudoClass => SelectorChain.pseudoClass value
  | PseudoElement => SelectorChain.pseudoElement value
  end.

(** The occurrence counter a kind owns; the kinds that may repeat are
    not counted. *)
Definition count (k : kind) (o : SelectorChain.t) : nat :=
  match k with
  | Element => SelectorChain.elementCount o
  | Id => SelectorChain.idCount o
  | PseudoElement => SelectorChain.pseudoElementCount o
  | Class | Attr | PseudoClass => 0
  end.

(** Some singleton counter exceeds 1: the condition [checkOccurence]
    throws on. *)
Definition exceeded (o : SelectorChain.t) : bool :=
  bool_decide (SelectorChain.idCount o > 1)
  || bool_decide (SelectorChain.pseudoElementCount o > 1)
  || bool_decide (SelectorChain.elementCount o > 1).

(** The receiver once the counter of kind [k] has been incremented. *)
Definition incremented (k : kind) (o : SelectorChain.t) : SelectorChain.t :=
  match k with
  | Element => SelectorChain.set_elementCount (SelectorChain.elementCount o + 1) o
  | Id => SelectorChain.set_idCount (SelectorChain.idCount o + 1) o
  | PseudoElement =>
      SelectorChain.set_pseudoElementCount (SelectorChain.pseudoElementCount o + 1) o
  | Class | Attr | PseudoClass => o
  end.

(** The receiver once a part has been validated and appended. *)
Definition accepted (k : kind) (value : string) (o : SelectorChain.t) : SelectorChain.t :=
  SelectorChain.set_selectorOrder (rank k)
    (SelectorChain.set_selectorChain
       (SelectorChain.selectorChain o +:+ rendered (k, value)) (incremented k o)).

(** A fluent chain [b.k1(v1).k2(v2)...]: the calls run in order and the
    first throw ends the chain. *)
Fixpoint chain (ps : list part) : SelectorChain.M unit :=
  match ps with
  | [] => mret tt
  | p :: ps' => append p.1 p.2 ;; chain ps'
  end.

(** Each part's rank is at least the rank before it, starting from
    [last]. *)
Fixpoint non_decreasing (last : nat) (ps : list part) : bool :=
  match ps with
  | [] => true
  | p :: ps' => bool_decide (last ≤ rank p.1) && non_decreasing (rank p.1) ps'
  end.

(** How many parts of kind [k] a sequence holds. *)
Definition occurrences (k : kind) (ps : list part) : nat :=
  length (filter (λ p, p.1 = k) ps).

(** No singleton kind occurs more than once. *)
Definition singletons_once (ps : list part) : bool :=
  forallb (λ k, bool_decide (occurrences k ps ≤ 1)) [Element; Id; PseudoElement].

(** A call a client can make on a builder it holds.  [Combine] carries the
    two argument objects as the call reads them. *)
Inductive call : Type :=
  | Append (k : kind) (value : string)
  | Combine (selector1 : SelectorChain.t) (combinator : string) (selector2 : SelectorChain.t)
  | Stringify.

(** The receiver after a call, whether the call returned or threw (a
    client may catch the error and go on using the builder). *)
Definition after (c : call) (o : SelectorChain.t) : SelectorChain.t :=
  match c with
  | Append k value => SelectorChain.fields (append k value) o
  | Combine s1 combinator s2 => SelectorChain.fields (SelectorChain.combine s1 combinator s2) o
  | Stringify => SelectorChain.fields SelectorChain.stringify o
  end.

Definition after_all (cs : list call) (o : SelectorChain.t) : SelectorChain.t :=
  foldl (λ o c, after c o) o cs.

(** The builders a program can hold: built by the constructor, changed by
    method calls only. *)
Inductive reachable : SelectorChain.t → Prop :=
  | reachable_new : reachable SelectorChain.new
  | reachable_after c o : reachable o → reachable (after c o).

(** The parts of a sequence of appends that were validated, when every
    call is made whatever the earlier ones did. *)
Fixpoint validated (ps : list part) (o : SelectorChain.t) : list part :=
  match ps with
  | [] => []
  | p :: ps' =>
      let o' := SelectorChain.fields (append p.1 p.2) o in
      match SelectorChain.outcome (append p.1 p.2) o with
      | Normal _ => p :: validated ps' o'
      | Throw _ => validated ps' o'
      end
  end.

(** The double quote, for the fragments that hold one. *)
Definition dquote : string := String "034"%char EmptyString.

(** The store of the example: [div#main] at 1, [table#data] at 2, a new
    builder at 3. *)
Definition example_store : store :=
  <[3%positive := SelectorChain.new]>
    (<[2%positive := after_all [Append Element "table"; Append Id "data"] SelectorChain.new]>
       {[1%positive := after_all [Append Element "div"; Append Id "main"] SelectorChain.new]}).

(** The facade entry that starts a chain with a part of kind [k]. *)
Definition entry (k : kind) (value : string) (h : store)
  : option (completion loc * store) :=
  match k with
  | Element => cssSelectorBuilder.element value h
  | Id => cssSelectorBuilder.id value h
  | Class => cssSelectorBuilder.class value h
  | Attr => cssSelectorBuilder.attr value h
  | PseudoClass => cssSelectorBuilder.pseudoClass value h
  | PseudoElement => cssSelectorBuilder.pseudoElement value h
  end.

(** The text of the builder a reference points to. *)
Definition text_at (l : loc) (h : store) : option string :=
  SelectorChain.selectorChain <$> h !! l.

(** ** The rectangle *)

(** [function Rectangle(width, height)]: an object with the two sides, JavaScript
    numbers, that is IEEE 754 binary64 values, and [getArea], an arrow
    function that multiplies the fields of the object it was made in. *)
Module Rectangle.

Record t : Type := mk {
  width : PrimFloat.float;
  height : PrimFloat.float
}.

Definition getArea (this : t) : PrimFloat.float :=
  PrimFloat.mul (width this) (height this).

End Rectangle.

(** ** The methods in closed form *)

Import SelectorChain.

Lemma string_app_assoc (a b c : string) : (a +:+ b) +:+ c = a +:+ (b +:+ c).
Proof.
  induction a as [|x a IH]; [done|].
  change (String x ((a +:+ b) +:+ c) = String x (a +:+ b +:+ c)).
  by rewrite IH.
Qed.

Lemma string_app_nil_r (a : string) : a +:+ "" = a.
Proof.
  induction a as [|x a IH]; [done|].
  change (String x (a +:+ "") = String x a).
  by rewrite IH.
Qed.

(** Unfold a method body down to its tests and decide them. *)
Ltac run_method :=
  repeat first
    [ progress cbv [append outcome fields element id class attr pseudoClass pseudoElement
        combine stringify checkOccurence checkSelectorsOrder get modify
        mbind mret mthrow M_bind M_ret M_throw
        count exceeded incremented accepted rank singleton rendered after
        set_selectorChain set_idCount set_elementCount set_pseudoElementCount
        set_selectorOrder selectorChain idCount elementCount pseudoElementCount
        selectorOrder fst snd orb andb]
    | case_bool_decide ].

(** What a part append answers: the occurrence check of a singleton comes
    before the order check, except in [pseudoElement], whose order check
    cannot fail while the order is at most 6. *)
Lemma append_outcome k v o :
  selectorOrder o ≤ 6 →
  outcome (append k v) o =
    if singleton k && exceeded (incremented k o) then Throw DuplicatePartError
    else if bool_decide (selectorOrder o > rank k) then Throw OrderViolationError
    else Normal tt.
Proof. destruct o, k; run_method; (done || lia). Qed.

(** What a part append leaves behind. *)
Lemma append_fields k v o :
  selectorOrder o ≤ 6 →
  fields (append k v) o =
    match outcome (append k v) o with
    | Normal _ => accepted k v o
    | Throw _ => incremented k o
    end.
Proof. destruct o, k; run_method; (done || lia). Qed.

Lemma reachable_order o : reachable o → selectorOrder o ≤ 6.
Proof.
  induction 1 as [|c o _ IH]; [cbn; lia|].
  destruct c as [k v| |]; [|done..].
  destruct o, k; revert IH; run_method; lia.
Qed.

Lemma reachable_after_all cs o : reachable o → reachable (after_all cs o).
Proof.
  revert o. induction cs as [|c cs IH]; intros o Ho; [done|].
  apply IH. by constructor.
Qed.

Lemma count_after c o k : count k o ≤ count k (after c o).
Proof.
  destruct c as [k' v| |]; [|destruct o, k; run_method; lia..].
  destruct o, k, k'; run_method; lia.
Qed.

Lemma count_after_all cs o k : count k o ≤ count k (after_all cs o).
Proof.
  revert o. induction cs as [|c cs IH]; intros o; [done|].
  cbn. etrans; [apply (count_after c)|apply IH].
Qed.

Lemma count_append k v o :
  selectorOrder o ≤ 6 → singleton k = true →
  count k (fields (append k v) o) = count k o + 1.
Proof. destruct o, k; run_method; (done || lia). Qed.

Lemma append_again k v o :
  selectorOrder o ≤ 6 → singleton k = true → 1 ≤ count k o →
  outcome (append k v) o = Throw DuplicatePartError
  ∧ selectorChain (fields (append k v) o) = selectorChain o.
Proof. destruct o, k; run_method; (done || lia). Qed.

Lemma exceeded_after c o : exceeded o = true → exceeded (after c o) = true.
Proof.
  destruct c as [k v| |]; [|destruct o; run_method; (done || lia)..].
  destruct o, k; run_method; (done || lia).
Qed.

Lemma exceeded_after_all cs o : exceeded o = true → exceeded (after_all cs o) = true.
Proof.
  revert o. induction cs as [|c cs IH]; intros o Ho; [done|].
  apply IH. by apply exceeded_after.
Qed.

Lemma append_exceeded k v o :
  selectorOrder o ≤ 6 → singleton k = true → exceeded o = true →
  outcome (append k v) o = Throw DuplicatePartError.
Proof. destruct o, k; run_method; (done || lia). Qed.

Lemma append_throw_frame k v o e :
  outcome (append k v) o = Throw e →
  selectorChain (fields (append k v) o) = selectorChain o
  ∧ selectorOrder (fields (append k v) o) = selectorOrder o.
Proof. destruct o, k; run_method; done. Qed.

Lemma append_normal_effect k v o :
  outcome (append k v) o = Normal tt →
  selectorChain (fields (append k v) o) = selectorChain o +:+ rendered (k, v)
  ∧ selectorOrder (fields (append k v) o) = rank k.
Proof. destruct o, k; run_method; done. Qed.

(** The outcome of a part append is read off the counters and the order
    alone. *)
Lemma append_outcome_ext k v o o' :
  idCount o' = idCount o → elementCount o' = elementCount o →
  pseudoElementCount o' = pseudoElementCount o → selectorOrder o' = selectorOrder o →
  outcome (append k v) o' = outcome (append k v) o.
Proof.
  destruct o, o'; cbn [idCount elementCount pseudoElementCount selectorOrder].
  intros -> -> -> ->. destruct k; run_method; (done || lia).
Qed.

(** ** Fluent chains *)

Lemma occurrences_cons k p ps :
  occurrences k (p :: ps) = (if decide (p.1 = k) then 1 else 0) + occurrences k ps.
Proof. unfold occurrences. rewrite filter_cons. by case_decide. Qed.

Lemma bind_normal {A B} (m : M A) (f : A → M B) o a :
  outcome m o = Normal a →
  outcome (m ≫= f) o = outcome (f a) (fields m o)
  ∧ fields (m ≫= f) o = fields (f a) (fields m o).
Proof.
  cbv [outcome fields mbind M_bind]. destruct (m o) as [r o']. cbn. by intros ->.
Qed.

Lemma chain_cons k v ps o :
  outcome (append k v) o = Normal tt →
  outcome (chain ((k, v) :: ps)) o = outcome (chain ps) (fields (append k v) o)
  ∧ fields (chain ((k, v) :: ps)) o = fields (chain ps) (fields (append k v) o).
Proof. intros H. exact (bind_normal (append k v) (λ _, chain ps) o tt H). Qed.

(** A chain that runs to its end validated each of its parts. *)
Lemma chain_normal_validated ps : ∀ o,
  outcome (chain ps) o = Normal tt → validated ps o = ps.
Proof.
  induction ps as [|[k v] ps IH]; intros o; [done|].
  cbn [validated fst snd].
  destruct (outcome (append k v) o) as [[]|e] eqn:Hout.
  - destruct (chain_cons k v ps o Hout) as [-> _]. intros H. by rewrite IH.
  - cbv [chain outcome mbind M_bind fst snd] in Hout |- *.
    destruct (append k v o) as [r o']. cbn in Hout. by rewrite Hout.
Qed.

(** A chain whose ranks do not decrease from the receiver's order on, and
    whose singleton parts fit in what the counters leave, runs to its end
    and appends every rendered form. *)
Lemma chain_accepted ps : ∀ o,
  non_decreasing (selectorOrder o) ps = true →
  (∀ k, singleton k = true → count k o + occurrences k ps ≤ 1) →
  outcome (chain ps) o = Normal tt
  ∧ selectorChain (fields (chain ps) o) = selectorChain o +:+ rendered_all ps.
Proof.
  induction ps as [|[k v] ps IH]; intros o Hord Hocc.
  { split; [done|]. cbn. by rewrite string_app_nil_r. }
  cbn in Hord. apply andb_prop in Hord as [Hk Hord]. apply bool_decide_eq_true in Hk.
  assert (Ho : selectorOrder o ≤ 6) by (destruct k; cbn in Hk; lia).
  assert (Hout : outcome (append k v) o = Normal tt).
  { rewrite append_outcome by done.
    pose proof (Hocc Element eq_refl) as He. pose proof (Hocc Id eq_refl) as Hi.
    pose proof (Hocc PseudoElement eq_refl) as Hp.
    rewrite !occurrences_cons in He, Hi, Hp. cbn [fst] in He, Hi, Hp.
    destruct o, k; revert He Hi Hp Hk; run_method; repeat case_decide; (done || lia). }
  destruct (append_normal_effect k v o Hout) as [Htxt Hrank].
  destruct (chain_cons k v ps o Hout) as [-> ->].
  destruct (IH (fields (append k v) o)) as [IH1 IH2].
  - by rewrite Hrank.
  - intros k' Hk'. specialize (Hocc k' Hk'). rewrite occurrences_cons in Hocc.
    cbn [fst] in Hocc. rewrite append_fields, Hout by done.
    destruct o, k, k'; revert Hocc; run_method; repeat case_decide; (done || lia).
  - split; [exact IH1|]. rewrite IH2, Htxt.
    cbn [rendered_all foldr]. apply string_app_assoc.
Qed.

(** C1. On a freshly constructed builder, a chain of part appends whose
    ranks never decrease and in which no singleton kind (type, id,
    pseudo-element) occurs twice runs to completion, every append
    succeeding, and [stringify()] then returns the rendered forms of the
    parts concatenated in call order with no separator. *)
Theorem C1_chain_stringify (ps : list part) :
  non_decreasing 0 ps = true →
  singletons_once ps = true →
  outcome (chain ps) new = Normal tt
  ∧ validated ps new = ps
  ∧ outcome (chain ps ;; stringify) new = Normal (rendered_all ps).
Proof.
  intros Hord Hocc.
  destruct (chain_accepted ps new) as [Hout Htxt]; [done| |].
  { intros k Hk. unfold singletons_once in Hocc. cbn [forallb] in Hocc.
    repeat (apply andb_prop in Hocc as [?%bool_decide_eq_true Hocc]).
    destruct k; try done; cbn; lia. }
  split; [done|]. split; [by apply chain_normal_validated|].
  destruct (bind_normal (chain ps) (λ _, stringify) new tt Hout) as [-> _].
  change (selectorChain new +:+ rendered_all ps) with (rendered_all ps) in Htxt.
  rewrite <- Htxt. by destruct (fields (chain ps) new).
Qed.

Lemma C1_chain_stringify_witness :
  outcome (chain [(Id, "main"); (Class, "container"); (Class, "editable")] ;; stringify) new
  = Normal "#main.container.editable".
Proof.
  exact (proj2 (proj2 (C1_chain_stringify
    [(Id, "main"); (Class, "container"); (Class, "editable")] eq_refl eq_refl))).
Defined.

Example example_element_attr_pseudoClass :
  outcome (chain [(Element, "a"); (Attr, "href$=" +:+ dquote +:+ ".png" +:+ dquote);
                  (PseudoClass, "focus")] ;; stringify) new
  = Normal ("a[href$=" +:+ dquote +:+ ".png" +:+ dquote +:+ "]:focus").
Proof. vm_compute. reflexivity. Qed.

(** ** Validation *)

Lemma after_all_app cs cs' o : after_all (cs ++ cs') o = after_all cs' (after_all cs o).
Proof. apply foldl_app. Qed.

(** C2. Whatever was called on a builder before and in between
    (appends, combines, stringifies, failed calls included), appending a
    part of a singleton kind (type, id, pseudo-element) to a builder to
    which a part of that kind was appended before throws
    [DuplicatePartError], and the text is the same after the failing call
    as before: the offending part is not rendered into it. *)
Theorem C2_second_singleton (pre mid : list call) (k : kind) (v1 v2 : string) :
  singleton k = true →
  outcome (append k v2) (after_all (pre ++ Append k v1 :: mid) new)
    = Throw DuplicatePartError
  ∧ selectorChain (fields (append k v2) (after_all (pre ++ Append k v1 :: mid) new))
    = selectorChain (after_all (pre ++ Append k v1 :: mid) new).
Proof.
  intros Hk. rewrite after_all_app.
  set (o1 := after_all pre new).
  assert (H1 : reachable o1) by apply reachable_after_all, reachable_new.
  change (after_all (Append k v1 :: mid) o1) with (after_all mid (after (Append k v1) o1)).
  set (o2 := after (Append k v1) o1).
  assert (H2 : reachable o2) by by constructor.
  apply append_again; [|done|].
  - by apply reachable_order, reachable_after_all.
  - etrans; [|apply count_after_all].
    unfold o2. cbn [after]. rewrite count_append; [lia| |done].
    by apply reachable_order.
Qed.

Lemma C2_second_singleton_witness :
  outcome (append Element "div") (after_all ([] ++ Append Element "table" :: []) new)
    = Throw DuplicatePartError
  ∧ selectorChain (fields (append Element "div")
      (after_all ([] ++ Append Element "table" :: []) new))
    = selectorChain (after_all ([] ++ Append Element "table" :: []) new).
Proof. exact (C2_second_singleton [] [] Element "table" "div" eq_refl). Defined.

(** C3, as the code has it.  On a builder a program can hold: a part whose
    rank is below the rank of the last validated part is refused, with
    [OrderViolationError] unless the part is a singleton whose counted
    occurrence puts a counter above 1, in which case the occurrence check,
    which runs first, throws [DuplicatePartError]; a part whose rank is
    equal or higher passes the order check and never throws
    [OrderViolationError].  A class part right after a validated attribute
    part throws [OrderViolationError]; a class part right after a
    validated class part is validated. *)
Theorem C3_order_check (o : t) (k : kind) (v : string) :
  reachable o →
  (rank k < selectorOrder o →
     outcome (append k v) o =
       if singleton k && exceeded (incremented k o) then Throw DuplicatePartError
       else Throw OrderViolationError)
  ∧ (selectorOrder o ≤ rank k →
     outcome (checkSelectorsOrder (rank k)) o = Normal tt
     ∧ outcome (append k v) o ≠ Throw OrderViolationError)
  ∧ (∀ v', outcome (attr v) o = Normal tt →
     outcome (class v') (fields (attr v) o) = Throw OrderViolationError)
  ∧ (∀ v', outcome (class v) o = Normal tt →
     outcome (class v') (fields (class v) o) = Normal tt).
Proof.
  intros Ho%reachable_order. split; [|split; [|split]].
  - intros Hlt. rewrite append_outcome by done.
    destruct (singleton k && exceeded (incremented k o)); [done|].
    rewrite bool_decide_eq_true_2; [done|lia].
  - intros Hle. split.
    + destruct o; revert Hle; run_method; (done || lia).
    + rewrite append_outcome by done.
      destruct (singleton k && exceeded (incremented k o)); [done|].
      rewrite bool_decide_eq_false_2; [done|lia].
  - intros v' Hv. destruct (append_normal_effect Attr v o Hv) as [_ Hr].
    change (outcome (append Class v') (fields (append Attr v) o) = Throw OrderViolationError).
    rewrite append_outcome by (rewrite Hr; cbn; lia).
    rewrite Hr. done.
  - intros v' Hv. destruct (append_normal_effect Class v o Hv) as [_ Hr].
    change (outcome (append Class v') (fields (append Class v) o) = Normal tt).
    rewrite append_outcome by (rewrite Hr; cbn; lia).
    rewrite Hr. done.
Qed.

Lemma C3_order_check_witness :
  outcome (append Class "c") (after_all [Append Attr "href"] new) = Throw OrderViolationError.
Proof.
  refine (proj1 (C3_order_check (after_all [Append Attr "href"] new) Class "c" _) _).
  - apply reachable_after_all, reachable_new.
  - vm_compute. lia.
Defined.

(** C3 as stated fails: after [element('div').id('main')] the rank of
    [element('p')], 1, is below the last rank, 2, and the call throws
    [DuplicatePartError], not [OrderViolationError]. *)
Lemma C3_counterexample :
  rank Element < selectorOrder (after_all [Append Element "div"; Append Id "main"] new)
  ∧ outcome (append Element "p") (after_all [Append Element "div"; Append Id "main"] new)
    = Throw DuplicatePartError
  ∧ outcome (append Element "p") (after_all [Append Element "div"; Append Id "main"] new)
    ≠ Throw OrderViolationError.
Proof. vm_compute. repeat split; [lia|done]. Qed.

(** C5. On a builder a program can hold, appending a singleton part
    (type, id, pseudo-element) increments the counter of its kind whether
    or not the call then throws, and the call throws [DuplicatePartError]
    exactly when one of the three singleton counters, any of them, then
    exceeds 1.  Hence, once some singleton counter is above 1, every later
    append of any singleton kind throws [DuplicatePartError], whatever is
    called in between. *)
Theorem C5_occurrence_check (o : t) :
  reachable o →
  (∀ k v, singleton k = true →
     count k (fields (append k v) o) = count k o + 1
     ∧ exceeded (fields (append k v) o) = exceeded (incremented k o)
     ∧ (outcome (append k v) o = Throw DuplicatePartError
        ↔ exceeded (fields (append k v) o) = true))
  ∧ (exceeded o = true → ∀ cs k v, singleton k = true →
     outcome (append k v) (after_all cs o) = Throw DuplicatePartError).
Proof.
  intros Hr. pose proof (reachable_order o Hr) as Ho. split.
  - intros k v Hk. split; [by apply count_append|].
    assert (He : exceeded (fields (append k v) o) = exceeded (incremented k o)).
    { rewrite append_fields by done.
      destruct (outcome (append k v) o); [|done]. by destruct o, k. }
    split; [done|]. rewrite He, append_outcome, Hk by done. cbn [andb].
    destruct (exceeded (incremented k o)); [done|].
    split; [|done]. by case_bool_decide.
  - intros He cs k v Hk. apply append_exceeded; [|done|].
    + by apply reachable_order, reachable_after_all.
    + by apply exceeded_after_all.
Qed.

Lemma C5_occurrence_check_witness :
  outcome (append PseudoElement "after")
    (after_all [Append Class "c"] (after_all [Append Id "a"; Append Id "b"] new))
  = Throw DuplicatePartError.
Proof.
  refine (proj2 (C5_occurrence_check (after_all [Append Id "a"; Append Id "b"] new) _)
            _ [Append Class "c"] PseudoElement "after" _).
  - apply reachable_after_all, reachable_new.
  - reflexivity.
  - reflexivity.
Defined.

(** The text after a run of appends, each made whatever the earlier ones
    did, is the text before followed by the rendered forms of the
    validated ones. *)
Lemma appends_text ps : ∀ o,
  selectorChain (after_all (map (λ p, Append p.1 p.2) ps) o)
  = selectorChain o +:+ rendered_all (validated ps o).
Proof.
  induction ps as [|[k v] ps IH]; intros o; cbn [map after_all foldl validated fst snd].
  { cbn. by rewrite string_app_nil_r. }
  fold (after_all (map (λ p, Append p.1 p.2) ps) (after (Append k v) o)).
  rewrite IH. cbn [after].
  destruct (outcome (append k v) o) as [[]|e] eqn:Hout.
  - destruct (append_normal_effect k v o Hout) as [-> _].
    cbn [rendered_all foldr]. apply string_app_assoc.
  - by destruct (append_throw_frame k v o e Hout) as [-> _].
Qed.




(** C7. [stringify()] returns the text and empties it, and leaves the
    three counters and the last rank alone: a second [stringify()] right
    after returns the empty string, and a part appended after it is
    accepted or refused exactly as it would have been before it. *)
Theorem C7_stringify (o : t) :
  outcome stringify o = Normal (selectorChain o)
  ∧ selectorChain (fields stringify o) = ""
  ∧ idCount (fields stringify o) = idCount o
  ∧ elementCount (fields stringify o) = elementCount o
  ∧ pseudoElementCount (fields stringify o) = pseudoElementCount o
  ∧ selectorOrder (fields stringify o) = selectorOrder o
  ∧ outcome stringify (fields stringify o) = Normal ""
  ∧ (∀ k v, outcome (append k v) (fields stringify o) = outcome (append k v) o).
Proof.
  repeat split; try by destruct o.
  intros k v. by apply append_outcome_ext.
Qed.

(** C10. On a freshly constructed builder a part of any kind, with any
    value, is validated: the call returns normally and the text is the
    rendered form of the part. *)
Theorem C10_first_append (k : kind) (v : string) :
  outcome (append k v) new = Normal tt
  ∧ selectorChain (fields (append k v) new) = rendered (k, v).
Proof. by destruct k. Qed.

(** ** Combining builders *)

(** What [combine] does to the store: it writes the receiver's text and
    nothing else. *)
Lemma combine_store (h : store) (this l1 l2 : loc) (c : string) (o s1 s2 : t) :
  h !! this = Some o → h !! l1 = Some s1 → h !! l2 = Some s2 →
  Ref.combine this l1 c l2 h =
    Some (Normal this,
          <[this := set_selectorChain
                      (selectorChain s1 +:+ " " +:+ c +:+ " " +:+ selectorChain s2) o]> h).
Proof.
  intros Ho H1 H2. unfold Ref.combine, Ref.invoke. rewrite H1, H2. cbn. rewrite Ho. done.
Qed.

Lemma combine_store_inv (h h' : store) (this l1 l2 : loc) (c : string) (r : completion loc) :
  Ref.combine this l1 c l2 h = Some (r, h') →
  ∃ o s1 s2, h !! this = Some o ∧ h !! l1 = Some s1 ∧ h !! l2 = Some s2.
Proof.
  unfold Ref.combine, Ref.invoke.
  destruct (h !! l1) as [s1|]; [|done]. destruct (h !! l2) as [s2|]; [|done].
  destruct (h !! this) as [o|]; [|done]. intros _. by exists o, s1, s2.
Qed.

Lemma construct_fresh (h : store) : h !! (cssSelectorBuilder.construct h).1 = None.
Proof. apply not_elem_of_dom, is_fresh. Qed.

(** C4. For a receiver and two arguments that are builders of the store
    (any of them may be the same object) and any combinator string,
    [combine] returns the receiver, whose text is then the text the left
    argument had, a space, the combinator, a space, and the text the right
    argument had; the facade's [combine] does the same on a builder it
    constructs. *)
Theorem C4_combine_text (h : store) (this l1 l2 : loc) (c : string) (o s1 s2 : t) :
  h !! this = Some o → h !! l1 = Some s1 → h !! l2 = Some s2 →
  (∃ h', Ref.combine this l1 c l2 h = Some (Normal this, h')
     ∧ selectorChain <$> h' !! this
       = Some (selectorChain s1 +:+ " " +:+ c +:+ " " +:+ selectorChain s2))
  ∧ (∃ this' h', cssSelectorBuilder.combine l1 c l2 h = Some (Normal this', h')
     ∧ h !! this' = None
     ∧ selectorChain <$> h' !! this'
       = Some (selectorChain s1 +:+ " " +:+ c +:+ " " +:+ selectorChain s2)).
Proof.
  intros Ho H1 H2. split.
  - eexists. split; [by apply combine_store|]. by rewrite lookup_insert_eq.
  - pose proof (construct_fresh h) as Hf.
    unfold cssSelectorBuilder.combine. cbn [cssSelectorBuilder.construct fst] in *.
    set (this' := fresh (dom h)) in *.
    exists this'. eexists. split; [|split; [done|]].
    + apply (combine_store _ this' l1 l2 c new s1 s2).
      * apply lookup_insert_eq.
      * rewrite lookup_insert_ne; [done|congruence].
      * rewrite lookup_insert_ne; [done|congruence].
    + by rewrite lookup_insert_eq.
Qed.

Lemma C4_combine_text_witness :
  ∃ h', Ref.combine 3 1 "+" 2 example_store = Some (Normal 3%positive, h')
    ∧ selectorChain <$> h' !! 3%positive = Some "div#main + table#data".
Proof.
  exact (proj1 (C4_combine_text example_store 3 1 2 "+" _ _ _ eq_refl eq_refl eq_refl)).
Defined.

(** C8, as the code has it.  [combine] changes no counter and no last
    rank of any builder, and no text but the receiver's: an argument that
    is not the receiver is after the call what it was before, and the
    receiver, argument or not, has the composed string for text. *)
Theorem C8_combine_frame (h h' : store) (this l1 l2 : loc) (c : string)
    (r : completion loc) :
  Ref.combine this l1 c l2 h = Some (r, h') →
  (∀ l, l ≠ this → h' !! l = h !! l)
  ∧ (l1 ≠ this → h' !! l1 = h !! l1)
  ∧ (l2 ≠ this → h' !! l2 = h !! l2)
  ∧ (∀ l b, h !! l = Some b →
       ∃ b', h' !! l = Some b'
         ∧ idCount b' = idCount b ∧ elementCount b' = elementCount b
         ∧ pseudoElementCount b' = pseudoElementCount b
         ∧ selectorOrder b' = selectorOrder b)
  ∧ (∃ s1 s2, h !! l1 = Some s1 ∧ h !! l2 = Some s2
       ∧ selectorChain <$> h' !! this
         = Some (selectorChain s1 +:+ " " +:+ c +:+ " " +:+ selectorChain s2)).
Proof.
  intros Hc. destruct (combine_store_inv _ _ _ _ _ _ _ Hc) as (o & s1 & s2 & Ho & H1 & H2).
  rewrite (combine_store h this l1 l2 c o s1 s2 Ho H1 H2) in Hc.
  injection Hc as _ <-.
  assert (Hframe : ∀ l, l ≠ this →
    (<[this := set_selectorChain
         (selectorChain s1 +:+ " " +:+ c +:+ " " +:+ selectorChain s2) o]> h : store) !! l
    = h !! l) by (intros l Hl; by rewrite lookup_insert_ne).
  split; [done|]. split; [by apply Hframe|]. split; [by apply Hframe|]. split.
  - intros l b Hb. destruct (decide (l = this)) as [->|Hl].
    + rewrite lookup_insert_eq. eexists. split; [done|].
      rewrite Ho in Hb. injection Hb as <-. by destruct o.
    + exists b. by rewrite Hframe.
  - exists s1, s2. by rewrite lookup_insert_eq.
Qed.

Lemma C8_combine_frame_witness :
  ∃ h', Ref.combine 3 1 "+" 2 example_store = Some (Normal 3%positive, h')
    ∧ h' !! 1%positive = example_store !! 1%positive
    ∧ h' !! 2%positive = example_store !! 2%positive.
Proof.
  pose proof (combine_store example_store 3 1 2 "+" _ _ _ eq_refl eq_refl eq_refl) as Hc.
  destruct (C8_combine_frame _ _ _ _ _ _ _ Hc) as (_ & H1 & H2 & _ & _).
  eexists. split; [exact Hc|]. split; [by apply H1|by apply H2].
Defined.

(** X7. Through the facade the receiver is a new object, so both
    arguments, the same builder twice included, come out of [combine] as
    they went in. *)
Corollary facade_combine_frame (h : store) (l1 l2 : loc) (c : string) (s1 s2 : t) :
  h !! l1 = Some s1 → h !! l2 = Some s2 →
  ∃ this h', cssSelectorBuilder.combine l1 c l2 h = Some (Normal this, h')
    ∧ h' !! l1 = Some s1 ∧ h' !! l2 = Some s2.
Proof.
  intros H1 H2. pose proof (construct_fresh h) as Hf.
  unfold cssSelectorBuilder.combine. cbn [cssSelectorBuilder.construct fst] in *.
  set (this := fresh (dom h)) in *.
  assert (N1 : this ≠ l1) by congruence. assert (N2 : this ≠ l2) by congruence.
  exists this. eexists. split.
  - apply (combine_store _ this l1 l2 c new s1 s2);
      [apply lookup_insert_eq|by rewrite lookup_insert_ne..].
  - by rewrite !lookup_insert_ne.
Qed.

(** C8 as stated fails when an argument is the receiver: [b.combine(b,
    '+', b)] on the builder [element('div')] rewrites the text of [b],
    which is the left and the right argument, from [div] to
    [div + div]. *)
Lemma C8_counterexample :
  ∃ h', Ref.combine 1 1 "+" 1 {[1%positive := after_all [Append Element "div"] new]}
        = Some (Normal 1%positive, h')
    ∧ selectorChain <$> ({[1%positive := after_all [Append Element "div"] new]} : store)
                          !! 1%positive = Some "div"
    ∧ selectorChain <$> h' !! 1%positive = Some "div + div".
Proof. eexists. split; [vm_compute; reflexivity|]. split; vm_compute; reflexivity. Qed.

(** C9. [combine] writes the receiver's text only: its three counters
    and its last rank are after the call what they were before, so a part
    appended to the receiver after a [combine] is accepted or refused
    exactly as it would have been before it. *)
Theorem C9_combine_receiver (h : store) (this l1 l2 : loc) (c : string) (o s1 s2 : t) :
  h !! this = Some o → h !! l1 = Some s1 → h !! l2 = Some s2 →
  ∃ h' o', Ref.combine this l1 c l2 h = Some (Normal this, h')
    ∧ h' !! this = Some o'
    ∧ idCount o' = idCount o ∧ elementCount o' = elementCount o
    ∧ pseudoElementCount o' = pseudoElementCount o
    ∧ selectorOrder o' = selectorOrder o
    ∧ (∀ k v, outcome (append k v) o' = outcome (append k v) o).
Proof.
  intros Ho H1 H2. eexists. eexists. split; [by apply combine_store|].
  split; [apply lookup_insert_eq|]. repeat split; try by destruct o.
  intros k v. by apply append_outcome_ext.
Qed.

Lemma C9_combine_receiver_witness :
  ∃ h' o', Ref.combine 1 1 ">" 2 example_store = Some (Normal 1%positive, h')
    ∧ h' !! 1%positive = Some o'
    ∧ outcome (append Element "p") o' = Throw DuplicatePartError
    ∧ outcome (append Class "c") o' = Normal tt.
Proof.
  destruct (C9_combine_receiver example_store 1 1 2 ">" _ _ _ eq_refl eq_refl eq_refl)
    as (h' & o' & Hc & Ho' & _ & _ & _ & _ & Hv).
  exists h', o'. split; [exact Hc|]. split; [exact Ho'|].
  split; [rewrite Hv; reflexivity|rewrite Hv; reflexivity].
Defined.

(** The example of the class comment, through the facade: combining
    [div#main] and [table#data] with [+] and reading the result. *)
Example example_facade_combine :
  ∃ h', cssSelectorBuilder.combine 1 "+" 2
          (<[2%positive := after_all [Append Element "table"; Append Id "data"] new]>
             {[1%positive := after_all [Append Element "div"; Append Id "main"] new]})
        = Some (Normal 3%positive, h')
    ∧ fst <$> Ref.stringify 3 h' = Some (Normal "div#main + table#data").
Proof. eexists. split; vm_compute; reflexivity. Qed.

(** ** What the validation amounts to *)

Lemma singletons_once_spec ps :
  singletons_once ps = true ↔ ∀ k, singleton k = true → occurrences k ps ≤ 1.
Proof.
  unfold singletons_once. cbn [forallb]. rewrite !andb_true_iff, !bool_decide_eq_true.
  split.
  - intros (He & Hi & Hp & _) k Hk. by destruct k.
  - intros H. repeat split; by apply H.
Qed.

Lemma chain_cons_throw k v ps o e :
  outcome (append k v) o = Throw e →
  outcome (chain ((k, v) :: ps)) o = Throw e
  ∧ fields (chain ((k, v) :: ps)) o = fields (append k v) o.
Proof.
  cbv [chain outcome fields mbind M_bind fst snd].
  destruct (append k v o) as [r o']. cbn. by intros ->.
Qed.

Lemma order_after c o : selectorOrder o ≤ selectorOrder (after c o).
Proof.
  destruct c as [k v| |]; [|destruct o; run_method; lia..].
  destruct o, k; run_method; lia.
Qed.

Lemma order_after_all cs o : selectorOrder o ≤ selectorOrder (after_all cs o).
Proof.
  revert o. induction cs as [|c cs IH]; intros o; [done|].
  cbn. etrans; [apply (order_after c)|apply IH].
Qed.

(** The counters of a validated part: the part's own counter moved by
    one, from 0, and the others stayed. *)
Lemma accepted_count k v o k' :
  selectorOrder o ≤ 6 → outcome (append k v) o = Normal tt → singleton k' = true →
  count k' (fields (append k v) o) = count k' o + (if decide (k = k') then 1 else 0)
  ∧ (singleton k = true → count k' (fields (append k v) o) ≤ 1).
Proof.
  intros Ho Hout Hk'. rewrite append_fields, Hout by done.
  rewrite append_outcome in Hout by done.
  destruct o, k, k'; revert Hout Hk'; run_method; repeat case_decide; (done || lia).
Qed.

(** A chain that runs to its end had its ranks in order and room in the
    counters for its singletons. *)
Lemma chain_normal_inv ps : ∀ o,
  selectorOrder o ≤ 6 →
  (∀ k, singleton k = true → count k o ≤ 1) →
  outcome (chain ps) o = Normal tt →
  non_decreasing (selectorOrder o) ps = true
  ∧ (∀ k, singleton k = true → count k o + occurrences k ps ≤ 1).
Proof.
  induction ps as [|[k v] ps IH]; intros o Ho Hc Hout.
  { split; [done|]. intros k Hk. specialize (Hc k Hk). cbn. lia. }
  destruct (outcome (append k v) o) as [[]|e] eqn:Hk; cycle 1.
  { destruct (chain_cons_throw k v ps o e Hk) as [Ht _]. congruence. }
  destruct (chain_cons k v ps o Hk) as [Hstep _]. rewrite Hstep in Hout.
  destruct (append_normal_effect k v o Hk) as [_ Hr].
  assert (Hle : selectorOrder o ≤ rank k).
  { rewrite append_outcome in Hk by done.
    destruct (singleton k && exceeded (incremented k o)); [done|].
    case_bool_decide; [done|lia]. }
  assert (Hc' : ∀ k', singleton k' = true → count k' (fields (append k v) o) ≤ 1).
  { intros k' Hk'. destruct (accepted_count k v o k' Ho Hk Hk') as [Heq H].
    specialize (Hc k' Hk'). destruct (singleton k) eqn:Hs; [by apply H|].
    case_decide; [congruence|lia]. }
  destruct (IH (fields (append k v) o)) as [IH1 IH2]; [rewrite Hr; destruct k; cbn; lia|done..|].
  split.
  - cbn [non_decreasing fst]. rewrite Hr in IH1. rewrite IH1, bool_decide_eq_true_2; done.
  - intros k' Hk'. specialize (IH2 k' Hk').
    destruct (accepted_count k v o k' Ho Hk Hk') as [Heq _].
    rewrite occurrences_cons. cbn [fst]. lia.
Qed.

(** X1. On a freshly constructed builder a fluent chain of part appends
    runs to its end without throwing exactly when the ranks of its parts
    never decrease and no singleton kind occurs in it twice. *)
Theorem X1_chain_accepts_iff (ps : list part) :
  outcome (chain ps) new = Normal tt
  ↔ non_decreasing 0 ps = true ∧ singletons_once ps = true.
Proof.
  rewrite singletons_once_spec. split.
  - intros Hout. destruct (chain_normal_inv ps new) as [H1 H2]; [cbn; lia| |done|].
    { intros k _. destruct k; cbn; lia. }
    split; [done|]. intros k Hk. specialize (H2 k Hk).
    destruct k; cbn in H2 |- *; done || lia.
  - intros [Hord Hocc]. apply (chain_accepted ps new); [done|].
    intros k Hk. specialize (Hocc k Hk). destruct k; cbn; lia.
Qed.

(** The counters after a refused part: none went down. *)
Lemma refused_count k v o k' : count k' o ≤ count k' (fields (append k v) o).
Proof. apply (count_after (Append k v)). Qed.

(** The validated parts of any run of appends are in rank order from the
    receiver's order on, and hold no singleton kind twice, nor one the
    receiver had counted already. *)
Lemma validated_well_formed ps : ∀ o,
  selectorOrder o ≤ 6 →
  non_decreasing (selectorOrder o) (validated ps o) = true
  ∧ (∀ k, singleton k = true →
       occurrences k (validated ps o) ≤ 1
       ∧ (1 ≤ count k o → occurrences k (validated ps o) = 0)).
Proof.
  induction ps as [|[k v] ps IH]; intros o Ho.
  { split; [done|]. intros k _. cbn. split; [lia|done]. }
  cbn [validated fst snd].
  destruct (outcome (append k v) o) as [[]|e] eqn:Hk.
  - destruct (append_normal_effect k v o Hk) as [_ Hr].
    assert (Hle : selectorOrder o ≤ rank k).
    { rewrite append_outcome in Hk by done.
      destruct (singleton k && exceeded (incremented k o)); [done|].
      case_bool_decide; [done|lia]. }
    destruct (IH (fields (append k v) o)) as [IH1 IH2]; [rewrite Hr; destruct k; cbn; lia|].
    split.
    + cbn [non_decreasing fst]. rewrite Hr in IH1. by rewrite IH1, bool_decide_eq_true_2.
    + intros k' Hk'. destruct (IH2 k' Hk') as [I1 I2].
      destruct (accepted_count k v o k' Ho Hk Hk') as [Heq Hone].
      rewrite occurrences_cons. cbn [fst]. case_decide as Hkk.
      * subst k'. specialize (Hone Hk'). split; [|lia].
        rewrite I2; lia.
      * split; [lia|]. intros Hc. rewrite I2; lia.
  - destruct (append_throw_frame k v o e Hk) as [_ Hr].
    destruct (IH (fields (append k v) o)) as [IH1 IH2]; [by rewrite Hr|].
    rewrite Hr in IH1. split; [done|].
    intros k' Hk'. destruct (IH2 k' Hk') as [I1 I2]. split; [done|].
    intros Hc. apply I2. pose proof (refused_count k v o k'). lia.
Qed.

(** X2. Whatever parts a client appends to a fresh builder, going on
    after the calls that threw, the text is the rendered forms of the
    parts that were validated, and those are in rank order with no
    singleton kind twice: the text is never an ill-formed compound
    selector. *)
Theorem X2_text_well_formed (ps : list part) :
  selectorChain (after_all (map (λ p, Append p.1 p.2) ps) new)
    = rendered_all (validated ps new)
  ∧ non_decreasing 0 (validated ps new) = true
  ∧ singletons_once (validated ps new) = true.
Proof.
  split; [apply (appends_text ps new)|].
  destruct (validated_well_formed ps new) as [H1 H2]; [cbn; lia|].
  split; [done|]. apply singletons_once_spec. intros k Hk. by apply H2.
Qed.

(** X3. Once a pseudo-element part has been validated the builder is
    closed: whatever is called on it afterwards, every further part
    append throws, a pseudo-element with [DuplicatePartError]. *)
Theorem X3_closed_after_pseudoElement (o : t) (v : string) :
  reachable o →
  outcome (pseudoElement v) o = Normal tt →
  ∀ cs k v',
    (∃ e, outcome (append k v') (after_all cs (fields (pseudoElement v) o)) = Throw e)
    ∧ (k = PseudoElement →
       outcome (append k v') (after_all cs (fields (pseudoElement v) o))
       = Throw DuplicatePartError).
Proof.
  intros Hr Hout cs k v'.
  set (o1 := fields (pseudoElement v) o).
  assert (Hr1 : reachable o1) by apply (reachable_after (Append PseudoElement v) o Hr).
  pose proof (reachable_after_all cs o1 Hr1) as Hr2.
  pose proof (reachable_order _ Hr2) as Ho2.
  assert (Hord : selectorOrder (after_all cs o1) = 6).
  { pose proof (order_after_all cs o1) as Hm.
    destruct (append_normal_effect PseudoElement v o Hout) as [_ H6].
    change (selectorOrder o1 = 6) in H6. lia. }
  assert (Hcnt : 1 ≤ count PseudoElement (after_all cs o1)).
  { etrans; [|apply count_after_all]. unfold o1.
    change (pseudoElement v) with (append PseudoElement v).
    rewrite count_append; [lia|by apply reachable_order|done]. }
  split.
  - destruct (decide (k = PseudoElement)) as [->|Hk].
    + exists DuplicatePartError. by apply append_again.
    + rewrite append_outcome by done.
      destruct (singleton k && exceeded (incremented k (after_all cs o1)));
        [by exists DuplicatePartError|].
      rewrite Hord. destruct k; try done; by exists OrderViolationError.
  - intros ->. by apply append_again.
Qed.

Lemma X3_closed_after_pseudoElement_witness :
  ∃ e, outcome (append Class "late")
         (after_all [Stringify] (fields (pseudoElement "after") (after_all [Append Id "x"] new)))
       = Throw e.
Proof.
  refine (proj1 (X3_closed_after_pseudoElement (after_all [Append Id "x"] new) "after"
                   _ eq_refl [Stringify] Class "late")).
  apply reachable_after_all, reachable_new.
Defined.

(** X4. No call lowers the validation state of a builder: along any
    calls, part appends that throw included, the last rank and the three
    counters only grow or stay, and on a builder made by the constructor
    the last rank stays within 0..6.  Nothing resets a builder. *)
Theorem X4_state_only_grows (cs : list call) (o : t) :
  selectorOrder o ≤ selectorOrder (after_all cs o)
  ∧ (∀ k, count k o ≤ count k (after_all cs o))
  ∧ (exceeded o = true → exceeded (after_all cs o) = true)
  ∧ selectorOrder (after_all cs new) ≤ 6.
Proof.
  split; [apply order_after_all|]. split; [intros k; apply count_after_all|].
  split; [apply exceeded_after_all|].
  apply reachable_order, reachable_after_all, reachable_new.
Qed.

(** X5. The occurrence check guards the singleton kinds only: a builder
    on which an append has just thrown [DuplicatePartError] still
    validates a class, attribute or pseudo-class part whose rank is not
    below the last rank, and renders it into the text. *)
Theorem X5_repeatable_after_duplicate (o : t) (k k' : kind) (v v' : string) :
  outcome (append k v) o = Throw DuplicatePartError →
  singleton k' = false →
  selectorOrder o ≤ rank k' →
  outcome (append k' v') (fields (append k v) o) = Normal tt
  ∧ selectorChain (fields (append k' v') (fields (append k v) o))
    = selectorChain o +:+ rendered (k', v').
Proof.
  intros Hd Hs Hle.
  destruct (append_throw_frame k v o _ Hd) as [Htxt Hord].
  assert (Hout : outcome (append k' v') (fields (append k v) o) = Normal tt).
  { revert Hord Hle Hs. generalize (fields (append k v) o). intros o' Hord Hle Hs.
    destruct o', k'; revert Hord Hle Hs; run_method; (done || lia). }
  split; [done|].
  destruct (append_normal_effect k' v' _ Hout) as [-> _]. by rewrite Htxt.
Qed.

Lemma X5_repeatable_after_duplicate_witness :
  outcome (append Class "c")
    (fields (append Element "p") (after_all [Append Element "div"] new)) = Normal tt
  ∧ selectorChain (fields (append Class "c")
      (fields (append Element "p") (after_all [Append Element "div"] new))) = "div.c".
Proof.
  refine (X5_repeatable_after_duplicate (after_all [Append Element "div"] new)
            Element Class "p" "c" eq_refl eq_refl _).
  vm_compute. lia.
Defined.

(** ** Using a builder again *)

Lemma chain_reachable ps : ∀ o, reachable o → reachable (fields (chain ps) o).
Proof.
  induction ps as [|[k v] ps IH]; intros o Ho; [done|].
  destruct (outcome (append k v) o) as [[]|e] eqn:Hk.
  - destruct (chain_cons k v ps o Hk) as [_ ->].
    apply IH, (reachable_after (Append k v) o Ho).
  - destruct (chain_cons_throw k v ps o e Hk) as [_ ->].
    apply (reachable_after (Append k v) o Ho).
Qed.

(** A chain counts each of its singleton parts. *)
Lemma chain_count ps : ∀ o k,
  selectorOrder o ≤ 6 → singleton k = true →
  outcome (chain ps) o = Normal tt →
  count k (fields (chain ps) o) = count k o + occurrences k ps.
Proof.
  induction ps as [|[k0 v] ps IH]; intros o k Ho Hk Hout; [cbn; lia|].
  destruct (outcome (append k0 v) o) as [[]|e] eqn:Hk0; cycle 1.
  { destruct (chain_cons_throw k0 v ps o e Hk0) as [Ht _]. congruence. }
  destruct (chain_cons k0 v ps o Hk0) as [Hs Hf]. rewrite Hs in Hout. rewrite Hf.
  destruct (append_normal_effect k0 v o Hk0) as [_ Hr].
  rewrite IH; [|rewrite Hr; destruct k0; cbn; lia|done..].
  destruct (accepted_count k0 v o k Ho Hk0 Hk) as [-> _].
  rewrite occurrences_cons. cbn [fst]. lia.
Qed.

(** A chain that holds a singleton kind the receiver has counted already
    throws. *)
Lemma chain_counted_throws ps : ∀ o k,
  selectorOrder o ≤ 6 → singleton k = true →
  1 ≤ count k o → 1 ≤ occurrences k ps →
  ∃ e, outcome (chain ps) o = Throw e.
Proof.
  induction ps as [|[k0 v] ps IH]; intros o k Ho Hk Hc Hocc; [cbn in Hocc; lia|].
  destruct (outcome (append k0 v) o) as [[]|e] eqn:Hk0; cycle 1.
  { exists e. by destruct (chain_cons_throw k0 v ps o e Hk0) as [-> _]. }
  destruct (chain_cons k0 v ps o Hk0) as [-> _].
  destruct (append_normal_effect k0 v o Hk0) as [_ Hr].
  rewrite occurrences_cons in Hocc. cbn [fst] in Hocc.
  apply (IH _ k); [rewrite Hr; destruct k0; cbn; lia|done| |].
  - pose proof (refused_count k0 v o k). lia.
  - case_decide as Hkk; [|lia]. subst k0.
    destruct (append_again k v o Ho Hk Hc) as [Hd _]. congruence.
Qed.

(** X9. A builder is not made new by [stringify()]: after a chain that
    holds a type, an id or a pseudo-element part has run to its end on a
    fresh builder and the text has been read, the same chain on the same
    builder throws, although the text it starts from is empty. *)
Theorem X9_no_reuse_after_stringify (ps : list part) (k : kind) :
  singleton k = true →
  1 ≤ occurrences k ps →
  outcome (chain ps) new = Normal tt →
  selectorChain (fields (chain ps ;; stringify) new) = ""
  ∧ ∃ e, outcome (chain ps) (fields (chain ps ;; stringify) new) = Throw e.
Proof.
  intros Hk Hocc Hout.
  destruct (bind_normal (chain ps) (λ _, stringify) new tt Hout) as [_ ->].
  set (o := fields (chain ps) new).
  assert (Hr : reachable o) by apply chain_reachable, reachable_new.
  split; [by destruct o|].
  apply (chain_counted_throws ps _ k); [|done| |done].
  - apply reachable_order, (reachable_after Stringify o Hr).
  - etrans; [|apply (count_after Stringify)]. unfold o.
    rewrite chain_count; [lia|cbn; lia|done..].
Qed.

Lemma X9_no_reuse_after_stringify_witness :
  ∃ e, outcome (chain [(Id, "main"); (Class, "c")])
         (fields (chain [(Id, "main"); (Class, "c")] ;; stringify) new) = Throw e.
Proof.
  refine (proj2 (X9_no_reuse_after_stringify [(Id, "main"); (Class, "c")] Id
                   eq_refl _ eq_refl)).
  vm_compute. lia.
Defined.

(** ** The facade *)

(** A method called on a newly constructed builder. *)
Lemma invoke_construct (h : store) (m : M unit) :
  Ref.invoke (cssSelectorBuilder.construct h).1 m (cssSelectorBuilder.construct h).2
  = Some (match outcome m new with
          | Normal _ => Normal (cssSelectorBuilder.construct h).1
          | Throw e => Throw e
          end,
          <[(cssSelectorBuilder.construct h).1 := fields m new]> h).
Proof.
  unfold Ref.invoke. cbn [cssSelectorBuilder.construct fst snd].
  rewrite lookup_insert_eq. cbn. by rewrite insert_insert_eq.
Qed.

Lemma entry_invoke k v (h : store) :
  entry k v h
  = Ref.invoke (cssSelectorBuilder.construct h).1 (append k v) (cssSelectorBuilder.construct h).2.
Proof. by destruct k. Qed.

(** X6. Every part entry of the facade, on any store and with any
    value, returns normally a reference to a builder that did not exist
    before, whose text is the rendered form of the part; the builders
    that existed are left as they were.  Two chains started from the
    facade share no validation state. *)
Theorem X6_facade_entry (k : kind) (v : string) (h : store) :
  ∃ this h',
    entry k v h = Some (Normal this, h')
    ∧ h !! this = None
    ∧ h' !! this = Some (accepted k v new)
    ∧ text_at this h' = Some (rendered (k, v))
    ∧ (∀ l, l ≠ this → h' !! l = h !! l)
    ∧ (∀ l b, h !! l = Some b → h' !! l = Some b).
Proof.
  exists (cssSelectorBuilder.construct h).1,
         (<[(cssSelectorBuilder.construct h).1 := accepted k v new]> h).
  pose proof (construct_fresh h) as Hf.
  split.
  { rewrite entry_invoke, invoke_construct. by destruct k. }
  split; [done|]. split; [apply lookup_insert_eq|].
  split; [unfold text_at; rewrite lookup_insert_eq; by destruct k|].
  split.
  - intros l Hl. by rewrite lookup_insert_ne.
  - intros l b Hb. rewrite lookup_insert_ne; [done|]. congruence.
Qed.

(** The facade's [combine] in full: a new builder holding the composed
    text, every builder that existed left as it was. *)
Lemma facade_combine_text (h : store) (l1 l2 : loc) (c : string) (s1 s2 : t) :
  h !! l1 = Some s1 → h !! l2 = Some s2 →
  ∃ this h',
    cssSelectorBuilder.combine l1 c l2 h = Some (Normal this, h')
    ∧ h !! this = None
    ∧ h' !! this
      = Some (set_selectorChain
                (selectorChain s1 +:+ " " +:+ c +:+ " " +:+ selectorChain s2) new)
    ∧ (∀ l b, h !! l = Some b → h' !! l = Some b).
Proof.
  intros H1 H2. pose proof (construct_fresh h) as Hf.
  unfold cssSelectorBuilder.combine. cbn [cssSelectorBuilder.construct fst] in *.
  set (this := fresh (dom h)) in *.
  assert (N1 : this ≠ l1) by congruence. assert (N2 : this ≠ l2) by congruence.
  exists this. eexists. split.
  { apply (combine_store _ this l1 l2 c new s1 s2);
      [apply lookup_insert_eq|by rewrite lookup_insert_ne..]. }
  split; [done|]. split.
  - rewrite lookup_insert_eq. done.
  - intros l b Hb. rewrite !lookup_insert_ne; [done|congruence..].
Qed.

(** X8. Combining through the facade nests associatively: on three
    builders of the store, combining the first two and then the result
    with the third gives the same text as combining the last two and then
    the first with the result, namely the three texts joined by the two
    combinators, each between single spaces. *)
Theorem X8_combine_assoc (h : store) (a b d : loc) (c1 c2 : string) (sa sb sd : t) :
  h !! a = Some sa → h !! b = Some sb → h !! d = Some sd →
  (∃ l1 h1 l2 h2,
     cssSelectorBuilder.combine a c1 b h = Some (Normal l1, h1)
     ∧ cssSelectorBuilder.combine l1 c2 d h1 = Some (Normal l2, h2)
     ∧ text_at l2 h2
       = Some (selectorChain sa +:+ " " +:+ c1 +:+ " " +:+ selectorChain sb
               +:+ " " +:+ c2 +:+ " " +:+ selectorChain sd))
  ∧ (∃ r1 g1 r2 g2,
     cssSelectorBuilder.combine b c2 d h = Some (Normal r1, g1)
     ∧ cssSelectorBuilder.combine a c1 r1 g1 = Some (Normal r2, g2)
     ∧ text_at r2 g2
       = Some (selectorChain sa +:+ " " +:+ c1 +:+ " " +:+ selectorChain sb
               +:+ " " +:+ c2 +:+ " " +:+ selectorChain sd)).
Proof.
  intros Ha Hb Hd. split.
  - destruct (facade_combine_text h a b c1 sa sb Ha Hb) as (l1 & h1 & E1 & N1 & T1 & F1).
    destruct (facade_combine_text h1 l1 d c2 _ sd T1 (F1 _ _ Hd))
      as (l2 & h2 & E2 & _ & T2 & _).
    exists l1, h1, l2, h2. split; [done|]. split; [done|].
    unfold text_at. rewrite T2. cbn. f_equal.
    by rewrite !string_app_assoc.
  - destruct (facade_combine_text h b d c2 sb sd Hb Hd) as (r1 & g1 & E1 & N1 & T1 & F1).
    destruct (facade_combine_text g1 a r1 c1 sa _ (F1 _ _ Ha) T1)
      as (r2 & g2 & E2 & _ & T2 & _).
    exists r1, g1, r2, g2. split; [done|]. split; [done|].
    unfold text_at. by rewrite T2.
Qed.

(** ** The rectangle *)

Lemma SFmul_comm prec emax x y :
  SpecFloat.SFmul prec emax x y = SpecFloat.SFmul prec emax y x.
Proof.
  destruct x as [sx|sx| |sx mx ex], y as [sy|sy| |sy my ey]; cbn;
    rewrite ?(xorb_comm sx sy), ?(Pos.mul_comm mx my), ?(Z.add_comm ex ey); reflexivity.
Qed.

(** X10. The area of a rectangle does not depend on which side is given
    as the width: [new Rectangle(w, h).getArea()] and
    [new Rectangle(h, w).getArea()] are the same number, for all
    binary64 values, infinities and NaN included. *)
Theorem X10_getArea_sides_swap (w h : PrimFloat.float) :
  Rectangle.getArea (Rectangle.mk w h) = Rectangle.getArea (Rectangle.mk h w).
Proof.
  unfold Rectangle.getArea. cbn [Rectangle.width Rectangle.height].
  apply FloatAxioms.Prim2SF_inj. rewrite !FloatAxioms.mul_spec.
  apply SFmul_comm.
Qed.

Lemma X7_facade_combine_frame_witness :
  ∃ this h',
    cssSelectorBuilder.combine 1 ">" 1 example_store = Some (Normal this, h')
    ∧ h' !! 1%positive = Some (after_all [Append Element "div"; Append Id "main"] new)
    ∧ h' !! 1%positive = Some (after_all [Append Element "div"; Append Id "main"] new).
Proof. exact (facade_combine_frame example_store 1 1 ">" _ _ eq_refl eq_refl). Defined.

Lemma X8_combine_assoc_witness :
  ∃ l1 h1 l2 h2,
    cssSelectorBuilder.combine 1 "+" 2 example_store = Some (Normal l1, h1)
    ∧ cssSelectorBuilder.combine l1 "~" 1 h1 = Some (Normal l2, h2)
    ∧ text_at l2 h2 = Some "div#main + table#data ~ div#main".
Proof.
  exact (proj1 (X8_combine_assoc example_store 1 2 1 "+" "~" _ _ _ eq_refl eq_refl eq_refl)).
Defined.

(** The nested example of the class comment: the descendant combinator
    is a space between the two padding spaces. *)
Example example_nested_combine :
  ∃ l1 h1 l2 h2 l3 h3,
    cssSelectorBuilder.combine 3 " " 4
      (<[4%positive := after_all [Append Element "td"; Append PseudoClass "nth-of-type(even)"] new]>
         (<[3%positive := after_all [Append Element "tr"; Append PseudoClass "nth-of-type(even)"] new]>
            (<[2%positive := after_all [Append Element "table"; Append Id "data"] new]>
               {[1%positive := after_all [Append Element "div"; Append Id "main";
                                          Append Class "container"; Append Class "draggable"] new]})))
      = Some (Normal l1, h1)
    ∧ cssSelectorBuilder.combine 2 "~" l1 h1 = Some (Normal l2, h2)
    ∧ cssSelectorBuilder.combine 1 "+" l2 h2 = Some (Normal l3, h3)
    ∧ fst <$> Ref.stringify l3 h3
      = Some (Normal
          "div#main.container.draggable + table#data ~ tr:nth-of-type(even)   td:nth-of-type(even)").
Proof. do 6 eexists. repeat split; vm_compute; reflexivity. Qed.

Section RectangleExample.
Import PrimFloat.

(** The example of the function comment. *)
Example example_getArea :
  Rectangle.getArea (Rectangle.mk 10%float 20%float) = 200%float.
Proof. reflexivity. Qed.

End RectangleExample.
